(** * The migration optimizer of django.db.migrations.optimizer

    A shallow embedding of [MigrationOptimizer]: the reduction table
    ([reduce] and its sub-methods), the through check
    ([can_optimize_through]), the single pass ([optimize_inner]) and the
    driver loop ([optimize]), followed by the properties the specification
    states about them. *)

From Stdlib Require Import Ascii String Lia.
From stdpp Require Import base decidable option list strings.

(** ** Names and their lower-casing *)

(** [str.lower()] on the letters a model or field name is written with:
    the upper-case ASCII letters are mapped to their lower-case ones, every
    other character is kept. *)
Definition lower_ascii (c : ascii) : ascii :=
  let n := nat_of_ascii c in
  if (65 <=? n)%nat && (n <=? 90)%nat then ascii_of_nat (n + 32) else c.

Fixpoint lower (s : string) : string :=
  match s with
  | EmptyString => EmptyString
  | String c s' => String (lower_ascii c) (lower s')
  end.

(** ** Python slices of a list, for indices that are not negative *)

(** [l[a:b]] *)
Definition slice {A : Type} (a b : nat) (l : list A) : list A :=
  take (b - a) (drop a l).

(** [l[a:]] *)
Definition slice_from {A : Type} (a : nat) (l : list A) : list A :=
  drop a l.

Section Optimizer.

(** Field definitions and the attributes the optimizer only copies
    (options, bases, table names, together-sets, the contents of
    operations of other kinds) are opaque values compared by value. *)
Context {Field Payload : Type}.
Context `{EqDecision Field, EqDecision Payload}.

(** Modelled from the spec: the operation classes of [django.db.migrations]
    are not part of optimizer.py; this is the tagged variant of the data
    model, with the attribute names optimizer.py reads.  [OtherOperation]
    stands for every kind the rule table does not mention (RunSQL,
    RunPython, ...). *)
Inductive Operation : Type :=
| CreateModel (name : string) (fields : list (string * Field))
              (options : Payload) (bases : list Payload)
| DeleteModel (name : string)
| AlterModelTable (name : string) (table : Payload)
| AlterUniqueTogether (name : string) (unique_together : Payload)
| AlterIndexTogether (name : string) (index_together : Payload)
| RenameModel (old_name new_name : string)
| AddField (model_name name : string) (field : Field)
| AlterField (model_name name : string) (field : Field)
| RemoveField (model_name name : string)
| RenameField (model_name old_name new_name : string)
| OtherOperation (payload : Payload).

(** Modelled from the spec: equality of operations is structural (same
    kind, same attributes, by value); it is what [result == operations]
    uses element-wise in [optimize]. *)
#[global] Instance Operation_eq_dec : EqDecision Operation.
Proof. solve_decision. Defined.

(** The classes [isinstance] is asked about. *)
Inductive Kind : Type :=
| KCreateModel | KDeleteModel | KAlterModelTable | KAlterUniqueTogether
| KAlterIndexTogether | KRenameModel | KAddField | KAlterField
| KRemoveField | KRenameField | KOther.

#[global] Instance Kind_eq_dec : EqDecision Kind.
Proof. solve_decision. Defined.

Definition kind (o : Operation) : Kind :=
  match o with
  | CreateModel _ _ _ _ => KCreateModel
  | DeleteModel _ => KDeleteModel
  | AlterModelTable _ _ => KAlterModelTable
  | AlterUniqueTogether _ _ => KAlterUniqueTogether
  | AlterIndexTogether _ _ => KAlterIndexTogether
  | RenameModel _ _ => KRenameModel
  | AddField _ _ _ => KAddField
  | AlterField _ _ _ => KAlterField
  | RemoveField _ _ => KRemoveField
  | RenameField _ _ _ => KRenameField
  | OtherOperation _ => KOther
  end.

Definition isinstance (o : Operation) (k : Kind) : bool :=
  bool_decide (kind o = k).

(** The capability interface every operation kind implements outside
    optimizer.py: [other.references_model(name, app_label)] and
    [other.references_field(model_name, name, app_label)]. *)
Class References : Type := {
  references_model : Operation → string → option string → bool;
  references_field : Operation → string → string → option string → bool
}.

Context {caps : References}.

(** ** REDUCTION *)

(** A sub-method returns [Some l] for [return l] and [None] when its [if]
    fails and the Python function falls off its end.  The last branch of
    each [match] is never reached through [reduce], which calls a
    sub-method only on the kinds its table entry names. *)

Definition reduce_model_create_delete (operation other : Operation)
  : option (list Operation) :=
  match operation, other with
  | CreateModel name _ _ _, DeleteModel name' =>
      if bool_decide (lower name = lower name') then Some [] else None
  | _, _ => None
  end.

Definition reduce_model_alter_delete (operation other : Operation)
  : option (list Operation) :=
  match operation, other with
  | AlterModelTable name _, DeleteModel name'
  | AlterUniqueTogether name _, DeleteModel name'
  | AlterIndexTogether name _, DeleteModel name' =>
      if bool_decide (lower name = lower name') then Some [other] else None
  | _, _ => None
  end.

Definition reduce_model_create_rename (operation other : Operation)
  : option (list Operation) :=
  match operation, other with
  | CreateModel name fields options bases, RenameModel old_name new_name =>
      if bool_decide (lower name = lower old_name)
      then Some [CreateModel new_name fields options bases]
      else None
  | _, _ => None
  end.

Definition reduce_model_rename_self (operation other : Operation)
  : option (list Operation) :=
  match operation, other with
  | RenameModel old_name new_name, RenameModel old_name' new_name' =>
      if bool_decide (lower new_name = lower old_name')
      then Some [RenameModel old_name new_name']
      else None
  | _, _ => None
  end.

Definition reduce_create_model_add_field (operation other : Operation)
  : option (list Operation) :=
  match operation, other with
  | CreateModel name fields options bases, AddField model_name fname field =>
      if bool_decide (lower name = lower model_name)
      then Some [CreateModel name (fields ++ [(fname, field)]) options bases]
      else None
  | _, _ => None
  end.

Definition reduce_create_model_alter_field (operation other : Operation)
  : option (list Operation) :=
  match operation, other with
  | CreateModel name fields options bases,
    AlterField model_name fname field =>
      if bool_decide (lower name = lower model_name)
      then Some [CreateModel name
                   (map (λ '(n, v), (n, if bool_decide (n = fname)
                                        then field else v)) fields)
                   options bases]
      else None
  | _, _ => None
  end.

Definition reduce_create_model_rename_field (operation other : Operation)
  : option (list Operation) :=
  match operation, other with
  | CreateModel name fields options bases,
    RenameField model_name old_name new_name =>
      if bool_decide (lower name = lower model_name)
      then Some [CreateModel name
                   (map (λ '(n, v), (if bool_decide (n = old_name)
                                     then new_name else n, v)) fields)
                   options bases]
      else None
  | _, _ => None
  end.

Definition reduce_create_model_remove_field (operation other : Operation)
  : option (list Operation) :=
  match operation, other with
  | CreateModel name fields options bases, RemoveField model_name fname =>
      if bool_decide (lower name = lower model_name)
      then Some [CreateModel name
                   (filter (λ '(n, v), lower n ≠ lower fname) fields)
                   options bases]
      else None
  | _, _ => None
  end.

Definition reduce_add_field_alter_field (operation other : Operation)
  : option (list Operation) :=
  match operation, other with
  | AddField model_name name field, AlterField model_name' name' field' =>
      if bool_decide (lower model_name = lower model_name')
         && bool_decide (lower name = lower name')
      then Some [AddField model_name name field']
      else None
  | _, _ => None
  end.

Definition reduce_add_field_delete_field (operation other : Operation)
  : option (list Operation) :=
  match operation, other with
  | AddField model_name name _, RemoveField model_name' name' =>
      if bool_decide (lower model_name = lower model_name')
         && bool_decide (lower name = lower name')
      then Some []
      else None
  | _, _ => None
  end.

Definition reduce_alter_field_delete_field (operation other : Operation)
  : option (list Operation) :=
  match operation, other with
  | AlterField model_name name _, RemoveField model_name' name' =>
      if bool_decide (lower model_name = lower model_name')
         && bool_decide (lower name = lower name')
      then Some [other]
      else None
  | _, _ => None
  end.

Definition reduce_add_field_rename_field (operation other : Operation)
  : option (list Operation) :=
  match operation, other with
  | AddField model_name name field,
    RenameField model_name' old_name new_name =>
      if bool_decide (lower model_name = lower model_name')
         && bool_decide (lower name = lower old_name)
      then Some [AddField model_name new_name field]
      else None
  | _, _ => None
  end.

Definition reduce_alter_field_rename_field (operation other : Operation)
  : option (list Operation) :=
  match operation, other with
  | AlterField model_name name field,
    RenameField model_name' old_name new_name =>
      if bool_decide (lower model_name = lower model_name')
         && bool_decide (lower name = lower old_name)
      then Some [other; AlterField model_name new_name field]
      else None
  | _, _ => None
  end.

Definition reduce_rename_field_self (operation other : Operation)
  : option (list Operation) :=
  match operation, other with
  | RenameField model_name old_name new_name,
    RenameField model_name' old_name' new_name' =>
      if bool_decide (lower model_name = lower model_name')
         && bool_decide (lower new_name = lower old_name')
      then Some [RenameField model_name old_name new_name']
      else None
  | _, _ => None
  end.

(** The table of [reduce], in the order of the source. *)
Definition submethods
  : list (Kind * Kind
          * (Operation → Operation → option (list Operation))) :=
  [ (KCreateModel, KDeleteModel, reduce_model_create_delete);
    (KAlterModelTable, KDeleteModel, reduce_model_alter_delete);
    (KAlterUniqueTogether, KDeleteModel, reduce_model_alter_delete);
    (KAlterIndexTogether, KDeleteModel, reduce_model_alter_delete);
    (KCreateModel, KRenameModel, reduce_model_create_rename);
    (KRenameModel, KRenameModel, reduce_model_rename_self);
    (KCreateModel, KAddField, reduce_create_model_add_field);
    (KCreateModel, KAlterField, reduce_create_model_alter_field);
    (KCreateModel, KRemoveField, reduce_create_model_remove_field);
    (KAddField, KAlterField, reduce_add_field_alter_field);
    (KAddField, KRemoveField, reduce_add_field_delete_field);
    (KAlterField, KRemoveField, reduce_alter_field_delete_field);
    (KAddField, KRenameField, reduce_add_field_rename_field);
    (KAlterField, KRenameField, reduce_alter_field_rename_field);
    (KCreateModel, KRenameField, reduce_create_model_rename_field);
    (KRenameField, KRenameField, reduce_rename_field_self) ].

(** [for ia, ib, om in submethods: if isinstance(...) and isinstance(...):
    return om(operation, other)], then [return None]. *)
Fixpoint reduce_loop
    (table : list (Kind * Kind *
                   (Operation → Operation → option (list Operation))))
    (operation other : Operation) : option (list Operation) :=
  match table with
  | [] => None
  | (ia, ib, om) :: table' =>
      if isinstance operation ia && isinstance other ib
      then om operation other
      else reduce_loop table' operation other
  end.

Definition reduce (operation other : Operation) : option (list Operation) :=
  reduce_loop submethods operation other.

(** ** THROUGH CHECKS *)

Definition MODEL_LEVEL_OPERATIONS : list Kind :=
  [KCreateModel; KAlterModelTable; KAlterUniqueTogether; KAlterIndexTogether].

Definition FIELD_LEVEL_OPERATIONS : list Kind :=
  [KAddField; KAlterField].

(** [isinstance] against a tuple of classes. *)
Definition isinstance_any (o : Operation) (ks : list Kind) : bool :=
  existsb (isinstance o) ks.

(** [operation.name] and [operation.model_name]; the default is returned
    only for kinds that do not carry the attribute, which
    [can_optimize_through] never asks for. *)
Definition op_name (o : Operation) : string :=
  match o with
  | CreateModel name _ _ _ | DeleteModel name | AlterModelTable name _
  | AlterUniqueTogether name _ | AlterIndexTogether name _
  | AddField _ name _ | AlterField _ name _ | RemoveField _ name => name
  | _ => ""
  end.

Definition op_model_name (o : Operation) : string :=
  match o with
  | AddField model_name _ _ | AlterField model_name _ _
  | RemoveField model_name _ | RenameField model_name _ _ => model_name
  | _ => ""
  end.

Definition can_optimize_through
    (operation other : Operation) (app_label : option string) : bool :=
  if isinstance_any operation MODEL_LEVEL_OPERATIONS
     && negb (references_model other (op_name operation) app_label)
  then true
  else if isinstance_any operation FIELD_LEVEL_OPERATIONS
          && negb (references_field other (op_model_name operation)
                     (op_name operation) app_label)
  then true
  else false.

(** ** The pass and the driver *)

(** What the inner [for j, other in enumerate(operations[i + 1:])] ends
    with: a [return] from inside it, the [break], or its [else]. *)
Inductive scan_result : Type :=
| Reduced (result : list Operation) (j : nat)
| Stopped
| Exhausted.

Fixpoint scan (operation : Operation) (app_label : option string)
    (rest : list Operation) (j : nat) : scan_result :=
  match rest with
  | [] => Exhausted
  | other :: rest' =>
      match reduce operation other with
      | Some result => Reduced result j
      | None =>
          if can_optimize_through operation other app_label
          then scan operation app_label rest' (S j)
          else Stopped
      end
  end.

(** The outer [for i, operation in enumerate(operations)]: [todo] is what
    the enumeration still has to yield, [i] the index of its head and
    [new_operations] the list built so far. *)
Fixpoint optimize_inner_loop (operations : list Operation)
    (app_label : option string) (i : nat) (todo : list Operation)
    (new_operations : list Operation) : list Operation :=
  match todo with
  | [] => new_operations
  | operation :: todo' =>
      match scan operation app_label (slice_from (i + 1) operations) 0 with
      | Reduced result j =>
          new_operations ++ result
            ++ slice (i + 1) (i + 1 + j) operations
            ++ slice_from (i + j + 2) operations
      | Stopped | Exhausted =>
          optimize_inner_loop operations app_label (S i) todo'
            (new_operations ++ [operation])
      end
  end.

Definition optimize_inner (operations : list Operation)
    (app_label : option string) : list Operation :=
  optimize_inner_loop operations app_label 0 operations [].

(** [while True] with the counter [self._iterations]: [fuel] bounds the
    number of passes, [None] is a run that has not returned within it.
    The result comes with the value of [_iterations]. *)
Fixpoint optimize_loop (fuel : nat) (operations : list Operation)
    (app_label : option string) (iterations : nat)
  : option (list Operation * nat) :=
  match fuel with
  | O => None
  | S fuel' =>
      let result := optimize_inner operations app_label in
      let iterations := iterations + 1 in
      if decide (result = operations) then Some (result, iterations)
      else optimize_loop fuel' result app_label iterations
  end.

Definition optimize (fuel : nat) (operations : list Operation)
    (app_label : option string) : option (list Operation * nat) :=
  optimize_loop fuel operations app_label 0.

(** ** Notions used to state the properties *)

(** The pass as a function of the part of the list still to be visited:
    what [optimize_inner] appends to [new_operations] from an index on. *)
Fixpoint pass_from (app_label : option string) (todo : list Operation)
  : list Operation :=
  match todo with
  | [] => []
  | operation :: rest =>
      match scan operation app_label rest 0 with
      | Reduced result j => result ++ take j rest ++ drop (S j) rest
      | Stopped | Exhausted => operation :: pass_from app_label rest
      end
  end.

(** [rest !! k] is the first operation after [operation] that [reduce]
    matches with it, every operation before it having been let through. *)
Definition first_partner (app_label : option string)
    (operation : Operation) (rest : list Operation) (k : nat)
    (result : list Operation) : Prop :=
  (∃ other, rest !! k = Some other ∧ reduce operation other = Some result)
  ∧ ∀ k' m, k' < k → rest !! k' = Some m →
      reduce operation m = None
      ∧ can_optimize_through operation m app_label = true.

(** The kind pairs of the rule table as the specification lists them. *)
Definition spec_rule_table : list (Kind * Kind) :=
  [ (KCreateModel, KDeleteModel);
    (KAlterModelTable, KDeleteModel);
    (KAlterUniqueTogether, KDeleteModel);
    (KAlterIndexTogether, KDeleteModel);
    (KCreateModel, KRenameModel);
    (KRenameModel, KRenameModel);
    (KCreateModel, KAddField);
    (KCreateModel, KAlterField);
    (KCreateModel, KRenameField);
    (KCreateModel, KRemoveField);
    (KAddField, KAlterField);
    (KAddField, KRemoveField);
    (KAlterField, KRemoveField);
    (KAddField, KRenameField);
    (KAlterField, KRenameField);
    (KRenameField, KRenameField) ].

(** The ingredients of the termination measure of the driver. *)
Definition is_alter (o : Operation) : bool :=
  match o with AlterField _ _ _ => true | _ => false end.

Definition is_rename (o : Operation) : bool :=
  match o with RenameField _ _ _ => true | _ => false end.

Fixpoint count_ops (p : Operation → bool) (l : list Operation) : nat :=
  match l with
  | [] => 0
  | o :: l' => (if p o then 1 else 0) + count_ops p l'
  end.

(** The number of pairs made of an AlterField and a RenameField further to
    the right. *)
Fixpoint alter_before_rename (l : list Operation) : nat :=
  match l with
  | [] => 0
  | o :: l' =>
      (if is_alter o then count_ops is_rename l' else 0)
      + alter_before_rename l'
  end.

(** Every fold but AlterField/RenameField shortens the list; that one keeps
    its length and moves the RenameField in front of the AlterField. *)
Definition measure (l : list Operation) : nat :=
  length l + alter_before_rename l.

(** The field names of a CreateModel, in order. *)
Definition field_names (fields : list (string * Field)) : list string :=
  map fst fields.

(** ** Notions used to state further properties *)

(** The kinds [optimize_inner] scans on from: those of the two tuples of
    [can_optimize_through]. *)
Definition scanning_kinds : list Kind :=
  MODEL_LEVEL_OPERATIONS ++ FIELD_LEVEL_OPERATIONS.

(** [b] answers both reference queries with True whatever it is asked
    about, as the base class of the operations does. *)
Definition references_everything (b : Operation)
    (app_label : option string) : Prop :=
  (∀ name, references_model b name app_label = true)
  ∧ (∀ model_name name, references_field b model_name name app_label = true).

(** The operations of kinds the table of [reduce] does not mention. *)
Definition others (l : list Operation) : list Operation :=
  filter (λ o, kind o = KOther) l.

(** The operation with the model and field names it carries lowered; the
    field list of a CreateModel is left as it is. *)
Definition lower_names (o : Operation) : Operation :=
  match o with
  | CreateModel name fields options bases =>
      CreateModel (lower name) fields options bases
  | DeleteModel name => DeleteModel (lower name)
  | AlterModelTable name table => AlterModelTable (lower name) table
  | AlterUniqueTogether name u => AlterUniqueTogether (lower name) u
  | AlterIndexTogether name i => AlterIndexTogether (lower name) i
  | RenameModel old_name new_name =>
      RenameModel (lower old_name) (lower new_name)
  | AddField model_name name field =>
      AddField (lower model_name) (lower name) field
  | AlterField model_name name field =>
      AlterField (lower model_name) (lower name) field
  | RemoveField model_name name => RemoveField (lower model_name) (lower name)
  | RenameField model_name old_name new_name =>
      RenameField (lower model_name) (lower old_name) (lower new_name)
  | OtherOperation payload => OtherOperation payload
  end.

(** Renames of a model in a row: from [a] to the first of [names], from
    there to the second, and so on. *)
Fixpoint rename_chain (a : string) (names : list string) : list Operation :=
  match names with
  | [] => []
  | b :: names' => RenameModel a b :: rename_chain b names'
  end.

End Optimizer.

(** ** An instance of the capability interface, for worked examples *)

(** An operation references the models it names; an operation of a kind the
    table does not mention is taken to reference everything. *)
Definition names_model {Field Payload : Type}
    (o : @Operation Field Payload) (name : string)
    (app_label : option string) : bool :=
  match o with
  | CreateModel n _ _ _ | DeleteModel n | AlterModelTable n _
  | AlterUniqueTogether n _ | AlterIndexTogether n _
  | AddField n _ _ | AlterField n _ _ | RemoveField n _
  | RenameField n _ _ => bool_decide (lower n = lower name)
  | RenameModel o n =>
      bool_decide (lower o = lower name) || bool_decide (lower n = lower name)
  | OtherOperation _ => true
  end.

Definition names_field {Field Payload : Type}
    (o : @Operation Field Payload) (model_name name : string)
    (app_label : option string) : bool :=
  names_model o model_name app_label
  && match o with
     | AddField _ n _ | AlterField _ n _ | RemoveField _ n =>
         bool_decide (lower n = lower name)
     | RenameField _ o n =>
         bool_decide (lower o = lower name)
         || bool_decide (lower n = lower name)
     | _ => true
     end.

(** The most cautious instance: everything references everything. *)
Definition references_all {Field Payload : Type}
    (o : @Operation Field Payload) (name : string)
    (app_label : option string) : bool := true.

Definition references_all_fields {Field Payload : Type}
    (o : @Operation Field Payload) (model_name name : string)
    (app_label : option string) : bool := true.

Definition by_name {Field Payload : Type} : @References Field Payload :=
  {| references_model := names_model; references_field := names_field |}.

Definition cautious {Field Payload : Type} : @References Field Payload :=
  {| references_model := references_all;
     references_field := references_all_fields |}.

(** ** Inputs of the worked examples

    Field definitions and opaque attributes are numbered. *)

Abbreviation ExOp := (@Operation nat nat).

(** A CreateModel and the DeleteModel of the same model, with an AddField
    on another model between them, behind an operation of another kind. *)
Definition ex_first_pair : list ExOp :=
  [ OtherOperation 0; CreateModel "Pony" [("id", 1)] 0 [];
    AddField "Horse" "age" 2; DeleteModel "pony"; DeleteModel "Horse" ].

(** Two renames of a model in a row, and what they fold into. *)
Definition ex_renames : list ExOp :=
  [ RenameModel "Pony" "Horse"; RenameModel "horse" "Equine" ].

Definition ex_renames_folded : list ExOp :=
  [ RenameModel "Pony" "Equine" ].

(** The three operations of the barrier example. *)
Definition ex_barrier : list ExOp :=
  [ CreateModel "Pony" [("id", 1)] 0 []; AlterField "Other" "fk" 7;
    DeleteModel "Pony" ].

(** A model with one field, "age". *)
Definition ex_pony : ExOp := CreateModel "Pony" [("age", 1)] 0 [].

(** * Properties *)

Section Properties.

Context {Field Payload : Type}.
Context `{EqDecision Field, EqDecision Payload}.

Abbreviation Op := (@Operation Field Payload).

Context {caps : @References Field Payload}.

Implicit Types (operation other op : Op) (ops rest todo : list Op).
Implicit Types (app_label : option string).

(** ** The inner scan *)

Lemma scan_shift op app_label rest j0 :
  scan op app_label rest j0 =
    match scan op app_label rest 0 with
    | Reduced r j => Reduced r (j0 + j)
    | Stopped => Stopped
    | Exhausted => Exhausted
    end.
Proof.
  revert j0. induction rest as [|m rest IH]; intros j0; simpl; [done|].
  destruct (reduce op m); [f_equal; lia|].
  destruct (can_optimize_through op m app_label); [|done].
  rewrite (IH (S j0)), (IH 1).
  destruct (scan op app_label rest 0); [f_equal; lia|done..].
Qed.

Lemma scan_Reduced_partner op app_label rest r k :
  scan op app_label rest 0 = Reduced r k →
  first_partner app_label op rest k r.
Proof.
  revert k. induction rest as [|m rest IH]; intros k; simpl; [done|].
  destruct (reduce op m) as [r'|] eqn:Hred.
  - intros [= <- <-]. split; [by exists m|]. intros k' ?; lia.
  - destruct (can_optimize_through op m app_label) eqn:Hthrough; [|done].
    rewrite scan_shift.
    destruct (scan op app_label rest 0) as [r' j| |] eqn:Hscan; [|done..].
    intros [= <- <-]. destruct (IH j eq_refl) as [[o [Ho Hr]] Hbefore].
    split; [by exists o|].
    intros [|k'] x Hlt Hx; simpl in Hx.
    + by injection Hx as <-.
    + apply (Hbefore k'); [lia|done].
Qed.

Lemma partner_scan_Reduced op app_label rest r k :
  first_partner app_label op rest k r →
  scan op app_label rest 0 = Reduced r k.
Proof.
  revert k. induction rest as [|m rest IH]; intros k [[o [Ho Hr]] Hbefore].
  - done.
  - simpl. destruct k as [|k]; simpl in Ho.
    + injection Ho as ->. by rewrite Hr.
    + destruct (Hbefore 0 m) as [-> ->]; [lia|done|].
      rewrite scan_shift, (IH k); [done|].
      split; [by exists o|].
      intros k' x Hlt Hx. apply (Hbefore (S k')); [lia|done].
Qed.

Lemma scan_Reduced_split op app_label rest r k :
  scan op app_label rest 0 = Reduced r k →
  ∃ other, rest = take k rest ++ other :: drop (S k) rest
           ∧ reduce op other = Some r.
Proof.
  intros [[o [Ho Hr]] _]%scan_Reduced_partner. exists o. split; [|done].
  by rewrite (take_drop_middle _ _ _ Ho).
Qed.

(** ** The pass *)

Lemma optimize_inner_loop_pass done todo acc app_label :
  optimize_inner_loop (done ++ todo) app_label (length done) todo acc
  = acc ++ pass_from app_label todo.
Proof.
  revert done acc. induction todo as [|op rest IH]; intros done acc; simpl.
  - by rewrite app_nil_r.
  - unfold slice_from, slice.
    rewrite (drop_app_add' done (op :: rest) (length done) 1 eq_refl).
    simpl drop at 1. rewrite drop_0.
    destruct (scan op app_label rest 0) as [r j| |] eqn:Hscan.
    + f_equal. f_equal.
      replace (length done + 1 + j - (length done + 1)) with j by lia.
      replace (length done + j + 2) with (length done + S (S j)) by lia.
      rewrite !(drop_app_add' done (op :: rest) (length done) _ eq_refl).
      done.
    + replace (done ++ op :: rest) with ((done ++ [op]) ++ rest)
        by (by rewrite <- app_assoc).
      replace (S (length done)) with (length (done ++ [op]))
        by (rewrite length_app; simpl; lia).
      rewrite IH. by rewrite <- app_assoc.
    + replace (done ++ op :: rest) with ((done ++ [op]) ++ rest)
        by (by rewrite <- app_assoc).
      replace (S (length done)) with (length (done ++ [op]))
        by (rewrite length_app; simpl; lia).
      rewrite IH. by rewrite <- app_assoc.
Qed.

Lemma optimize_inner_pass ops app_label :
  optimize_inner ops app_label = pass_from app_label ops.
Proof. apply (optimize_inner_loop_pass [] ops []). Qed.

(** A pass either finds no pair and returns its input, or folds one pair
    and leaves everything else where it was. *)
Lemma pass_cases app_label todo :
  pass_from app_label todo = todo
  ∨ ∃ pre op mid other post r,
      todo = pre ++ op :: mid ++ other :: post
      ∧ reduce op other = Some r
      ∧ pass_from app_label todo = pre ++ r ++ mid ++ post.
Proof.
  induction todo as [|op rest IH]; simpl; [by left|].
  destruct (scan op app_label rest 0) as [r j| |] eqn:Hscan.
  - right. destruct (scan_Reduced_split _ _ _ _ _ Hscan) as [o [Hrest Hr]].
    exists [], op, (take j rest), o, (drop (S j) rest), r.
    simpl. by rewrite <- Hrest.
  - destruct IH as [->|(pre & o1 & mid & o2 & post & r & -> & Hr & ->)];
      [by left|right].
    by exists (op :: pre), o1, mid, o2, post, r.
  - destruct IH as [->|(pre & o1 & mid & o2 & post & r & -> & Hr & ->)];
      [by left|right].
    by exists (op :: pre), o1, mid, o2, post, r.
Qed.

(** ** What a fold does to the measure *)

Lemma count_ops_app (p : Op → bool) (l1 l2 : list Op) :
  count_ops p (l1 ++ l2) = count_ops p l1 + count_ops p l2.
Proof. induction l1 as [|o l1 IH]; simpl; [done|]. rewrite IH. lia. Qed.

Lemma alter_before_rename_app (l1 l2 : list Op) :
  alter_before_rename (l1 ++ l2)
  = alter_before_rename l1 + alter_before_rename l2
    + count_ops is_alter l1 * count_ops is_rename l2.
Proof.
  induction l1 as [|o l1 IH]; simpl; [lia|].
  rewrite IH, count_ops_app. destruct (is_alter o); lia.
Qed.

(** The result of a fold has at most one operation, none of them an
    AlterField and no more RenameFields than the pair had; or the pair is
    an AlterField and a RenameField, and the result is that RenameField
    followed by an AlterField. *)
Lemma reduce_shape op other r :
  reduce op other = Some r →
  (length r ≤ 1 ∧ count_ops is_alter r = 0
   ∧ count_ops is_rename r
     ≤ count_ops is_rename [op] + count_ops is_rename [other])
  ∨ (is_alter op = true ∧ is_rename other = true
     ∧ ∃ a, r = [other; a] ∧ is_alter a = true).
Proof.
  destruct op, other; cbn; try discriminate;
    repeat case_bool_decide; cbn; try discriminate;
    intros [= <-]; cbn; try (left; repeat split; lia).
  right. repeat split. by eexists.
Qed.

Lemma reduce_length op other r : reduce op other = Some r → length r ≤ 2.
Proof.
  intros [(? & _)|(_ & _ & a & -> & _)]%reduce_shape; simpl; lia.
Qed.

Lemma measure_fold pre op mid other post r :
  reduce op other = Some r →
  measure (pre ++ r ++ mid ++ post)
  < measure (pre ++ op :: mid ++ other :: post).
Proof.
  intros Hr. unfold measure.
  change (op :: mid ++ other :: post) with ([op] ++ mid ++ [other] ++ post).
  rewrite !alter_before_rename_app, !count_ops_app, !length_app.
  destruct (reduce_shape _ _ _ Hr)
    as [(Hlen & Ha & Hren)|(Ha & Hren & a & -> & Haa)].
  - assert (alter_before_rename r = 0) as ->.
    { destruct r as [|x [|y r]]; simpl in *; try lia.
      destruct (is_alter x); simpl in *; lia. }
    rewrite Ha. simpl in *.
    destruct (is_alter op), (is_alter other), (is_rename op),
      (is_rename other); simpl in *; nia.
  - simpl. rewrite Ha, Hren, Haa. simpl.
    destruct (is_alter other) eqn:Hao;
      [destruct other; discriminate|].
    destruct (is_rename op) eqn:Hro; [destruct op; discriminate|].
    destruct (is_rename a) eqn:Hra; [destruct a; discriminate|].
    simpl. nia.
Qed.

Lemma pass_measure app_label ops :
  pass_from app_label ops = ops
  ∨ measure (pass_from app_label ops) < measure ops.
Proof.
  destruct (pass_cases app_label ops)
    as [?|(pre & o1 & mid & o2 & post & r & -> & Hr & ->)]; [by left|right].
  by apply measure_fold.
Qed.

Lemma pass_length app_label ops :
  length (pass_from app_label ops) ≤ length ops.
Proof.
  destruct (pass_cases app_label ops)
    as [->|(pre & o1 & mid & o2 & post & r & -> & Hr & ->)]; [done|].
  apply reduce_length in Hr. rewrite !length_app; simpl.
  rewrite !length_app; simpl. lia.
Qed.

(** ** The driver loop *)

Lemma optimize_loop_fixed fuel ops app_label it :
  optimize_inner ops app_label = ops →
  optimize_loop (S fuel) ops app_label it = Some (ops, it + 1).
Proof.
  intros Hfix. cbn [optimize_loop]. rewrite Hfix. by rewrite decide_True.
Qed.

Lemma optimize_loop_sound app_label fuel ops it r n :
  optimize_loop fuel ops app_label it = Some (r, n) →
  optimize_inner r app_label = r
  ∧ length r ≤ length ops ∧ it < n ≤ it + fuel.
Proof.
  revert ops it. induction fuel as [|fuel IH]; intros ops it; [done|].
  cbn [optimize_loop]. case_decide as Hstop.
  - intros [= <- <-]. rewrite !Hstop. repeat split; lia.
  - intros (Hfix & Hlen & Hn)%IH. split; [done|].
    pose proof (pass_length app_label ops) as Hpass.
    rewrite <- optimize_inner_pass in Hpass. lia.
Qed.

Lemma optimize_loop_total app_label fuel ops it :
  measure ops < fuel →
  ∃ r n, optimize_loop fuel ops app_label it = Some (r, n).
Proof.
  revert ops it. induction fuel as [|fuel IH]; intros ops it Hm; [lia|].
  cbn [optimize_loop]. case_decide as Hstop; [by eauto|].
  apply IH. rewrite optimize_inner_pass in *.
  destruct (pass_measure app_label ops); [done|lia].
Qed.

Lemma optimize_loop_mono app_label fuel fuel' ops it x :
  optimize_loop fuel ops app_label it = Some x → fuel ≤ fuel' →
  optimize_loop fuel' ops app_label it = Some x.
Proof.
  revert fuel' ops it. induction fuel as [|fuel IH]; intros fuel' ops it;
    [done|].
  intros Hrun Hle. destruct fuel' as [|fuel']; [lia|].
  cbn [optimize_loop] in *. case_decide; [done|].
  apply IH; [done|lia].
Qed.

(** ** The first matching pair of a pass *)

Lemma pass_skip app_label pre todo :
  (∀ i x, pre !! i = Some x →
     ∀ k r, ¬ first_partner app_label x (drop (S i) (pre ++ todo)) k r) →
  pass_from app_label (pre ++ todo) = pre ++ pass_from app_label todo.
Proof.
  induction pre as [|x pre IH]; intros Hnone; simpl; [done|].
  destruct (scan x app_label (pre ++ todo) 0) as [r k| |] eqn:Hscan.
  - destruct (Hnone 0 x eq_refl k r). simpl. rewrite drop_0.
    by apply scan_Reduced_partner.
  - f_equal. apply IH. intros i y Hy. apply (Hnone (S i) y Hy).
  - f_equal. apply IH. intros i y Hy. apply (Hnone (S i) y Hy).
Qed.

(** C1: when the scan from no position before [i] finds a partner and the
    scan from [i] lets the operations up to [j] through and folds with the
    one at [j], the pass returns the operations before [i], the result of
    the fold, the operations strictly between [i] and [j] and the ones
    after [j], nothing after [i] being visited. *)
Theorem C1_pass_folds_first_pair ops app_label i j op other r :
  i < j →
  ops !! i = Some op →
  ops !! j = Some other →
  reduce op other = Some r →
  (∀ k m, i < k < j → ops !! k = Some m →
     reduce op m = None ∧ can_optimize_through op m app_label = true) →
  (∀ i' x, i' < i → ops !! i' = Some x →
     ∀ k r', ¬ first_partner app_label x (drop (S i') ops) k r') →
  optimize_inner ops app_label
  = take i ops ++ r ++ slice (i + 1) j ops ++ slice_from (j + 1) ops.
Proof.
  intros Hij Hop Hother Hr Hbetween Hbefore.
  rewrite optimize_inner_pass.
  rewrite <- (take_drop_middle ops i op Hop) at 1.
  rewrite pass_skip.
  - f_equal. simpl.
    rewrite (partner_scan_Reduced op app_label _ r (j - S i)).
    + unfold slice, slice_from. rewrite drop_drop.
      replace (j - (i + 1)) with (j - S i) by lia.
      replace (i + 1) with (S i) by lia.
      replace (S i + S (j - S i)) with (j + 1) by lia. done.
    + split.
      * exists other. rewrite lookup_drop.
        by replace (S i + (j - S i)) with j by lia.
      * intros k' m Hk'. rewrite lookup_drop. apply Hbetween. lia.
  - intros i' x Hx. rewrite (take_drop_middle ops i op Hop).
    apply lookup_take_Some in Hx as [Hx Hlt]. by apply Hbefore.
Qed.

(** C2: the list a run of [optimize] returns is left unchanged by a pass,
    and running [optimize] on it returns it again, after a single pass. *)
Theorem C2_optimize_idempotent fuel ops app_label r n :
  optimize fuel ops app_label = Some (r, n) →
  optimize_inner r app_label = r
  ∧ ∀ fuel', optimize (S fuel') r app_label = Some (r, 1).
Proof.
  intros [Hfix _]%optimize_loop_sound. split; [done|].
  intros fuel'. by apply (optimize_loop_fixed fuel' r app_label 0).
Qed.

(** C3: a fold puts at most two operations in the place of two, so a pass
    returns its input or a list with one pair replaced, never a longer
    list, and neither does a run of [optimize]. *)
Theorem C3_length_non_increase ops app_label :
  length (optimize_inner ops app_label) ≤ length ops
  ∧ (optimize_inner ops app_label = ops
     ∨ ∃ pre op mid other post r,
         ops = pre ++ op :: mid ++ other :: post
         ∧ reduce op other = Some r ∧ length r ≤ 2
         ∧ optimize_inner ops app_label = pre ++ r ++ mid ++ post)
  ∧ ∀ fuel r n, optimize fuel ops app_label = Some (r, n) →
      length r ≤ length ops.
Proof.
  rewrite optimize_inner_pass. split; [apply pass_length|]. split.
  - destruct (pass_cases app_label ops)
      as [?|(pre & o1 & mid & o2 & post & r & -> & Hr & ->)]; [by left|].
    right. exists pre, o1, mid, o2, post, r.
    repeat split; [done|by eapply reduce_length].
  - intros fuel r n Hrun. by apply optimize_loop_sound in Hrun as (_ & ? & _).
Qed.

(** C8: [optimize] returns within [S (measure ops)] passes, whatever the
    input: some pass returns its own input, which is the result, and more
    fuel changes neither the result nor the count of passes. *)
Theorem C8_optimize_terminates ops app_label :
  ∃ r n, optimize (S (measure ops)) ops app_label = Some (r, n)
    ∧ optimize_inner r app_label = r
    ∧ 1 ≤ n ≤ S (measure ops)
    ∧ ∀ fuel, S (measure ops) ≤ fuel →
        optimize fuel ops app_label = Some (r, n).
Proof.
  destruct (optimize_loop_total app_label (S (measure ops)) ops 0)
    as (r & n & Hrun); [lia|].
  exists r, n. split; [done|].
  destruct (optimize_loop_sound _ _ _ _ _ _ Hrun) as (Hfix & _ & Hn).
  repeat split; [done|lia..|].
  intros fuel Hle. by apply (optimize_loop_mono _ _ _ _ _ _ Hrun).
Qed.

(** ** The rules *)

Lemma pass_pair_None app_label op other :
  reduce op other = None → pass_from app_label [op; other] = [op; other].
Proof.
  intros Hr. simpl. rewrite Hr.
  by destruct (can_optimize_through op other app_label).
Qed.

Lemma pass_pair_Some app_label op other r :
  reduce op other = Some r → pass_from app_label [op; other] = r.
Proof. intros Hr. simpl. rewrite Hr. simpl. by rewrite app_nil_r. Qed.

Lemma alter_field_absent (fields : list (string * Field)) fname field :
  fname ∉ field_names fields →
  map (λ '(n, v), (n, if bool_decide (n = fname) then field else v)) fields
  = fields.
Proof.
  induction fields as [|[n v] fields IH]; simpl; [done|].
  intros Hnot. apply not_elem_of_cons in Hnot as [Hne Hnot].
  rewrite bool_decide_false by done. f_equal. by apply IH.
Qed.

(** C4, at the input where it fails: the field "Name" of the CreateModel
    and the name "name" of the second operation are equal once lowered,
    yet the AlterField fold does not replace the definition of the field
    and the RenameField fold does not rename it, both comparing the names
    as they are written; the RemoveField fold, which lowers both names,
    drops the field. *)
Theorem C4_field_lookup_compares_names_as_written
    (f1 f2 : Field) (options : Payload) (bases : list Payload) :
  lower "Name" = lower "name"
  ∧ reduce (CreateModel "Pony" [("Name", f1)] options bases)
      (AlterField "pony" "name" f2)
    = Some [CreateModel "Pony" [("Name", f1)] options bases]
  ∧ reduce (CreateModel "Pony" [("Name", f1)] options bases)
      (RenameField "pony" "name" "title")
    = Some [CreateModel "Pony" [("Name", f1)] options bases]
  ∧ reduce (CreateModel "Pony" [("Name", f1)] options bases)
      (RemoveField "pony" "name")
    = Some [CreateModel "Pony" [] options bases].
Proof. repeat split; vm_compute; reflexivity. Qed.

(** C5: when the AlterField between them references the model "Pony", the
    CreateModel and the DeleteModel, which fold to nothing when adjacent,
    are kept apart by it and [optimize] returns the three operations as
    they are, in a single pass. *)
Theorem C5_referencing_alter_field_is_a_barrier
    (fields : list (string * Field)) (options : Payload)
    (bases : list Payload) (fk : Field) app_label :
  references_model (AlterField "Other" "fk" fk) "Pony" app_label = true →
  let ops := [CreateModel "Pony" fields options bases;
              AlterField "Other" "fk" fk; DeleteModel "Pony"] in
  reduce (CreateModel "Pony" fields options bases) (DeleteModel "Pony")
  = Some []
  ∧ can_optimize_through (CreateModel "Pony" fields options bases)
      (AlterField "Other" "fk" fk) app_label = false
  ∧ optimize_inner ops app_label = ops
  ∧ ∀ fuel, optimize (S fuel) ops app_label = Some (ops, 1).
Proof.
  intros Href ops.
  assert (can_optimize_through (CreateModel "Pony" fields options bases)
            (AlterField "Other" "fk" fk) app_label = false) as Hbarrier.
  { unfold can_optimize_through. cbn. by rewrite Href. }
  assert (optimize_inner ops app_label = ops) as Hfix.
  { rewrite optimize_inner_pass. subst ops. cbn [pass_from scan].
    change (reduce (CreateModel "Pony" fields options bases)
              (AlterField "Other" "fk" fk)) with (@None (list Op)).
    rewrite Hbarrier.
    change (reduce (AlterField "Other" "fk" fk) (DeleteModel "Pony"))
      with (@None (list Op)).
    cbn. destruct (can_optimize_through (AlterField _ _ _) _ _); reflexivity. }
  repeat split; [done..|].
  intros fuel. by apply (optimize_loop_fixed fuel ops app_label 0).
Qed.

(** C6: an AlterField followed by a RenameField of the field it alters, on
    the same model, names compared lowered, folds into the RenameField
    followed by the AlterField under the new name. *)
Theorem C6_alter_field_rename_field
    (model_name name : string) (field : Field)
    (model_name' old_name new_name : string) :
  lower model_name = lower model_name' →
  lower name = lower old_name →
  reduce (AlterField model_name name field : Op)
    (RenameField model_name' old_name new_name)
  = Some [RenameField model_name' old_name new_name;
          AlterField model_name new_name field].
Proof.
  intros Hm Hn. cbn. by rewrite !bool_decide_true.
Qed.

(** C7: on a pair of kinds the rule table does not list, [reduce] returns
    [None] whatever the attributes are; and [None] is not the empty list:
    a pass keeps a pair that [reduce] answers [None] for and removes a
    pair it answers the empty list for. *)
Theorem C7_reduce_no_match_outside_table op other app_label :
  ((kind op, kind other) ∉ spec_rule_table → reduce op other = None)
  ∧ (reduce op other = None →
     optimize_inner [op; other] app_label = [op; other])
  ∧ (reduce op other = Some [] → optimize_inner [op; other] app_label = []).
Proof.
  split; [|split].
  - intros Hnot. destruct op, other; try reflexivity;
      exfalso; apply Hnot; unfold spec_rule_table; cbn [kind];
      repeat first [apply list_elem_of_here | apply list_elem_of_further].
  - rewrite optimize_inner_pass. apply pass_pair_None.
  - rewrite optimize_inner_pass. apply pass_pair_Some.
Qed.

(** C9: a CreateModel and an AlterField on the same model, names compared
    lowered, fold even when the CreateModel has no field of the altered
    name: the result is the CreateModel as it was, and the pass drops the
    AlterField. *)
Theorem C9_alter_of_absent_field_is_dropped
    (name : string) (fields : list (string * Field)) (options : Payload)
    (bases : list Payload) (model_name fname : string) (field : Field)
    app_label :
  lower name = lower model_name →
  fname ∉ field_names fields →
  reduce (CreateModel name fields options bases)
    (AlterField model_name fname field)
  = Some [CreateModel name fields options bases]
  ∧ optimize_inner [CreateModel name fields options bases;
           AlterField model_name fname field] app_label
    = [CreateModel name fields options bases].
Proof.
  intros Hm Habsent.
  assert (reduce (CreateModel name fields options bases)
            (AlterField model_name fname field)
          = Some [CreateModel name fields options bases]) as Hr.
  { cbn. rewrite bool_decide_true by done.
    by rewrite alter_field_absent. }
  split; [done|]. rewrite optimize_inner_pass. by apply pass_pair_Some.
Qed.

(** C10: a CreateModel and an AddField on the same model, names compared
    lowered, fold into the CreateModel with the new field appended, whether
    or not a field of that name is there already; when one is, the field
    names of the result repeat it. *)
Theorem C10_add_field_appends_without_check
    (name : string) (fields : list (string * Field)) (options : Payload)
    (bases : list Payload) (model_name fname : string) (field : Field) :
  lower name = lower model_name →
  reduce (CreateModel name fields options bases)
    (AddField model_name fname field)
  = Some [CreateModel name (fields ++ [(fname, field)]) options bases]
  ∧ (fname ∈ field_names fields →
     ¬ NoDup (field_names (fields ++ [(fname, field)]))).
Proof.
  intros Hm. split.
  - cbn. by rewrite bool_decide_true.
  - intros Hin. unfold field_names. rewrite map_app. simpl.
    intros [_ [Hdisj _]]%NoDup_app. apply (Hdisj fname Hin).
    apply list_elem_of_here.
Qed.

End Properties.

(** * The properties at concrete inputs *)

Lemma C1_first_pair_example :
  optimize_inner (caps := by_name) ex_first_pair None
  = [ OtherOperation 0; AddField "Horse" "age" 2; DeleteModel "Horse" ].
Proof.
  apply (C1_pass_folds_first_pair (caps := by_name) ex_first_pair None
           1 3 (CreateModel "Pony" [("id", 1)] 0 []) (DeleteModel "pony") []).
  - lia.
  - reflexivity.
  - reflexivity.
  - reflexivity.
  - intros k m Hk Hm. assert (k = 2) as -> by lia.
    injection Hm as <-. split; reflexivity.
  - intros i' x Hi Hx k r' Hp. assert (i' = 0) as -> by lia.
    injection Hx as <-.
    apply partner_scan_Reduced in Hp.
    discriminate Hp.
Defined.

Lemma C2_renames_example :
  optimize_inner (caps := by_name) ex_renames_folded None
  = ex_renames_folded
  ∧ optimize (caps := by_name) 3 ex_renames_folded None
    = Some (ex_renames_folded, 1).
Proof.
  destruct (C2_optimize_idempotent (caps := by_name) 5 ex_renames None
              ex_renames_folded 2 eq_refl) as [Hfix Hagain].
  split; [exact Hfix|exact (Hagain 2)].
Defined.

Lemma C3_renames_example :
  length ex_renames_folded ≤ length ex_renames.
Proof.
  apply (proj2 (proj2 (C3_length_non_increase (caps := by_name)
                         ex_renames None)) 5 ex_renames_folded 2).
  reflexivity.
Defined.

Lemma C5_barrier_example :
  optimize (caps := cautious) 1 ex_barrier None
  = Some (ex_barrier, 1).
Proof.
  apply (proj2 (proj2 (proj2
           (C5_referencing_alter_field_is_a_barrier (caps := cautious)
              [("id", 1)] 0 [] 7 None eq_refl))) 0).
Defined.

Lemma C6_alter_rename_example :
  reduce (AlterField "Pony" "Age" 1 : ExOp) (RenameField "pony" "age" "years")
  = Some [RenameField "pony" "age" "years"; AlterField "Pony" "years" 1].
Proof.
  apply (C6_alter_field_rename_field (Payload := nat)
           "Pony" "Age" 1 "pony" "age" "years"); reflexivity.
Defined.

Lemma C7_delete_create_example :
  reduce (DeleteModel "Pony") ex_pony = None.
Proof.
  apply (proj1 (C7_reduce_no_match_outside_table (caps := by_name)
                  (DeleteModel "Pony") ex_pony None)).
  apply (bool_decide_unpack _). reflexivity.
Defined.

Lemma C9_absent_field_example :
  reduce ex_pony (AlterField "pony" "height" 2) = Some [ex_pony]
  ∧ optimize_inner (caps := by_name)
      [ex_pony; AlterField "pony" "height" 2] None = [ex_pony].
Proof.
  apply (C9_alter_of_absent_field_is_dropped (caps := by_name)
           "Pony" [("age", 1)] 0 [] "pony" "height" 2 None).
  - reflexivity.
  - apply (bool_decide_unpack _). reflexivity.
Defined.

Lemma C10_duplicate_field_example :
  reduce ex_pony (AddField "pony" "age" 2)
  = Some [CreateModel "Pony" [("age", 1); ("age", 2)] 0 []]
  ∧ ¬ NoDup (field_names [("age", 1); ("age", 2)]).
Proof.
  destruct (C10_add_field_appends_without_check
              "Pony" [("age", 1)] 0 [] "pony" "age" 2 eq_refl)
    as [Hfold Hdup].
  split; [exact Hfold|]. apply Hdup. apply list_elem_of_here.
Defined.

(** ** The examples of the specification, run on the embedding *)

Example cancellation :
  optimize (caps := by_name) 2
    [CreateModel "Pony" [] 0 []; DeleteModel "pony" : ExOp] None
  = Some ([], 2).
Proof. reflexivity. Qed.

Example field_folding :
  optimize (caps := by_name) 2
    [CreateModel "Pony" [("name", 1)] 0 []; AddField "pony" "age" 2 : ExOp]
    None
  = Some ([CreateModel "Pony" [("name", 1); ("age", 2)] 0 []], 2).
Proof. reflexivity. Qed.

Example add_remove_cancellation :
  optimize (caps := by_name) 2
    [AddField "Pony" "age" 2; RemoveField "pony" "age" : ExOp] None
  = Some ([], 2).
Proof. reflexivity. Qed.

Example rename_chaining :
  optimize (caps := by_name) 2 ex_renames None
  = Some (ex_renames_folded, 2).
Proof. reflexivity. Qed.

(** The AlterField/RenameField fold keeps the length: three passes fold
    once each, the fourth changes nothing. *)
Example alter_rename_chain :
  optimize (caps := by_name) 4
    [AlterField "m" "a" 7; AlterField "n" "x" 8; RenameField "m" "a" "b";
     RenameField "M" "B" "c" : ExOp] None
  = Some ([RenameField "m" "a" "c"; AlterField "m" "c" 7;
           AlterField "n" "x" 8], 4).
Proof. reflexivity. Qed.

(** * Further properties of the code *)

Section Further.

Context {Field Payload : Type}.
Context `{EqDecision Field, EqDecision Payload}.
Context {caps : @References Field Payload}.

Implicit Types (operation other op : @Operation Field Payload).
Implicit Types (ops rest todo : list (@Operation Field Payload)).
Implicit Types (app_label : option string).

(** ** The table of [reduce] *)

Lemma isinstance_pair op other ia ib :
  isinstance op ia && isinstance other ib = true
  ↔ (kind op, kind other) = (ia, ib).
Proof.
  unfold isinstance. rewrite andb_true_iff, !bool_decide_eq_true.
  split; [by intros [-> ->]|by intros [= -> ->]].
Qed.

Lemma reduce_loop_no_entry table op other :
  (kind op, kind other) ∉ table.*1 →
  reduce_loop table op other = None.
Proof.
  induction table as [|[[ia ib] om] table IH]; simpl; [done|].
  intros [Hne Hnot]%not_elem_of_cons.
  destruct (isinstance op ia && isinstance other ib) eqn:Hmatch.
  - by apply isinstance_pair in Hmatch.
  - by apply IH.
Qed.

Lemma reduce_loop_Permutation table1 table2 op other :
  NoDup table1.*1 → table1 ≡ₚ table2 →
  reduce_loop table1 op other = reduce_loop table2 op other.
Proof.
  intros Hnodup Hperm. induction Hperm as
    [|[[ia ib] om] t1 t2 Hperm IH
     |[[ia ib] om] [[ia' ib'] om'] t
     |t1 t2 t3 Hperm12 IH12 Hperm23 IH23]; simpl in *.
  - done.
  - apply NoDup_cons in Hnodup as [_ Hnodup]. by rewrite IH.
  - apply NoDup_cons in Hnodup as [Hne _].
    destruct (isinstance op ia && isinstance other ib) eqn:Hm;
      destruct (isinstance op ia' && isinstance other ib') eqn:Hm';
      try done.
    apply isinstance_pair in Hm, Hm'. destruct Hne. rewrite <- Hm, <- Hm'.
    apply list_elem_of_here.
  - rewrite IH12 by done. apply IH23.
    by rewrite <- Hperm12.
Qed.

Lemma submethods_NoDup : NoDup (@submethods Field Payload).*1.
Proof.
  apply (bool_decide_unpack _). reflexivity.
Qed.

(** X1: no two entries of the table of [reduce] name the same pair of
    classes, so the order of the entries does not matter: the loop over
    any rearrangement of the table returns what [reduce] returns. *)
Theorem reduce_order_of_table_irrelevant table op other :
  table ≡ₚ submethods →
  reduce_loop table op other = reduce op other.
Proof.
  intros Hperm. symmetry. apply reduce_loop_Permutation; [|done].
  apply submethods_NoDup.
Qed.

(** ** Kinds are kept *)

Lemma reduce_kinds op other r :
  reduce op other = Some r →
  kind op ≠ KOther ∧ kind other ≠ KOther
  ∧ Forall (λ o, kind o = kind op ∨ kind o = kind other) r.
Proof.
  destruct op, other; cbn; try discriminate;
    repeat case_bool_decide; cbn; try discriminate;
    intros [= <-]; (split; [done|split; [done|]]);
    repeat first [apply List.Forall_nil
                 | apply List.Forall_cons; [cbn; by auto|]].
Qed.

Lemma pass_kinds app_label ops o :
  o ∈ pass_from app_label ops → kind o ∈ kind <$> ops.
Proof.
  destruct (pass_cases app_label ops)
    as [->|(pre & o1 & mid & o2 & post & r & -> & Hr & ->)].
  - apply list_elem_of_fmap_2.
  - apply reduce_kinds in Hr as (_ & _ & Hr).
    rewrite Forall_forall in Hr.
    rewrite !elem_of_app, !fmap_app, !fmap_cons, !elem_of_app.
    rewrite !elem_of_cons, !fmap_app, !fmap_cons, !elem_of_app.
    rewrite !elem_of_cons.
    intros [Hin|[Hin|[Hin|Hin]]].
    + left. by apply list_elem_of_fmap_2.
    + destruct (Hr o Hin) as [->| ->]; auto.
    + right. right. left. by apply list_elem_of_fmap_2.
    + right. right. right. right. by apply list_elem_of_fmap_2.
Qed.

Lemma optimize_loop_kinds app_label fuel ops it r n o :
  optimize_loop fuel ops app_label it = Some (r, n) →
  o ∈ r → kind o ∈ kind <$> ops.
Proof.
  revert ops it. induction fuel as [|fuel IH]; intros ops it; [done|].
  cbn [optimize_loop]. case_decide as Hstop.
  - intros [= <- <-] Hin. rewrite Hstop in Hin.
    by apply list_elem_of_fmap_2.
  - intros Hrun Hin. specialize (IH _ _ Hrun Hin).
    apply list_elem_of_fmap in IH as (o' & -> & Hin').
    rewrite optimize_inner_pass in Hin'. by apply pass_kinds in Hin'.
Qed.

(** X2: a pass, and a whole run, never brings in a kind of operation: every
    operation of the result has the kind of some operation of the input. *)
Theorem optimize_introduces_no_kind ops app_label o :
  (o ∈ optimize_inner ops app_label → kind o ∈ kind <$> ops)
  ∧ ∀ fuel r n, optimize fuel ops app_label = Some (r, n) →
      o ∈ r → kind o ∈ kind <$> ops.
Proof.
  split.
  - rewrite optimize_inner_pass. apply pass_kinds.
  - intros fuel r n. apply optimize_loop_kinds.
Qed.

Lemma others_app (l1 l2 : list (@Operation Field Payload)) :
  others (l1 ++ l2) = others l1 ++ others l2.
Proof. apply filter_app. Qed.

Lemma others_none (r : list (@Operation Field Payload)) :
  Forall (λ o, kind o ≠ KOther) r → others r = [].
Proof.
  induction 1 as [|o r Ho _ IH]; [done|].
  unfold others in *. by rewrite filter_cons_False.
Qed.

Lemma pass_others app_label ops :
  others (pass_from app_label ops) = others ops.
Proof.
  destruct (pass_cases app_label ops)
    as [->|(pre & o1 & mid & o2 & post & r & -> & Hr & ->)]; [done|].
  apply reduce_kinds in Hr as (H1 & H2 & Hr).
  assert (others r = []) as Hnone.
  { apply others_none. eapply Forall_impl; [exact Hr|].
    simpl. intros o [-> | ->]; done. }
  change (o1 :: mid ++ o2 :: post) with ([o1] ++ mid ++ [o2] ++ post).
  rewrite !others_app, Hnone. unfold others at 5 7.
  rewrite !filter_cons_False by done. by rewrite filter_nil.
Qed.

Lemma optimize_loop_others app_label fuel ops it r n :
  optimize_loop fuel ops app_label it = Some (r, n) →
  others r = others ops.
Proof.
  revert ops it. induction fuel as [|fuel IH]; intros ops it; [done|].
  cbn [optimize_loop]. case_decide as Hstop.
  - intros [= <- <-]. by rewrite Hstop.
  - intros ->%IH. rewrite optimize_inner_pass. apply pass_others.
Qed.

(** X3: the operations of kinds the table does not mention are all kept,
    as they are and in their order, by a pass and by a whole run. *)
Theorem optimize_keeps_other_kinds ops app_label :
  others (optimize_inner ops app_label) = others ops
  ∧ ∀ fuel r n, optimize fuel ops app_label = Some (r, n) →
      others r = others ops.
Proof.
  split.
  - rewrite optimize_inner_pass. apply pass_others.
  - intros fuel r n. apply optimize_loop_others.
Qed.

(** ** The lists a pass leaves alone *)

Lemma pass_fixed_no_partner app_label ops :
  pass_from app_label ops = ops →
  ∀ i x, ops !! i = Some x →
    ∀ k r, ¬ first_partner app_label x (drop (S i) ops) k r.
Proof.
  induction ops as [|op rest IH]; [done|]. simpl.
  destruct (scan op app_label rest 0) as [r j| |] eqn:Hscan.
  - intros Hfix.
    destruct (scan_Reduced_split _ _ _ _ _ Hscan) as (o & Hrest & Hr).
    pose proof (measure_fold [] op (take j rest) o (drop (S j) rest) r Hr)
      as Hlt.
    simpl in Hlt. rewrite <- Hrest, Hfix in Hlt. lia.
  - intros [= Hfix] [|i] x Hx k r; simpl in *.
    + injection Hx as <-. intros Hp%partner_scan_Reduced.
      rewrite drop_0 in Hp. congruence.
    + by apply IH.
  - intros [= Hfix] [|i] x Hx k r; simpl in *.
    + injection Hx as <-. intros Hp%partner_scan_Reduced.
      rewrite drop_0 in Hp. congruence.
    + by apply IH.
Qed.

Lemma pass_no_partner_fixed app_label ops :
  (∀ i x, ops !! i = Some x →
     ∀ k r, ¬ first_partner app_label x (drop (S i) ops) k r) →
  pass_from app_label ops = ops.
Proof.
  intros Hnone. pose proof (pass_skip app_label ops []) as Hskip.
  rewrite !app_nil_r in Hskip. by apply Hskip.
Qed.

(** X4: a pass returns the list it was given exactly when the scan from no
    position of the list reaches an operation to fold with. *)
Theorem optimize_inner_fixed_iff ops app_label :
  optimize_inner ops app_label = ops
  ↔ ∀ i x, ops !! i = Some x →
      ∀ k r, ¬ first_partner app_label x (drop (S i) ops) k r.
Proof.
  rewrite optimize_inner_pass. split.
  - apply pass_fixed_no_partner.
  - apply pass_no_partner_fixed.
Qed.

(** X5: in the list a run returns, no operation folds with the one right
    after it. *)
Theorem optimize_result_has_no_adjacent_fold fuel ops app_label r n i a b :
  optimize fuel ops app_label = Some (r, n) →
  r !! i = Some a → r !! S i = Some b →
  reduce a b = None.
Proof.
  intros [Hfix _]%optimize_loop_sound Ha Hb.
  rewrite optimize_inner_pass in Hfix.
  destruct (reduce a b) as [res|] eqn:Hres; [|done].
  destruct (pass_fixed_no_partner app_label r Hfix i a Ha 0 res).
  split.
  - exists b. split; [|done]. rewrite lookup_drop.
    by replace (S i + 0) with (S i) by lia.
  - intros k' m Hk'. lia.
Qed.

(** ** The number of passes *)

Lemma pass_length_lower app_label ops :
  length ops ≤ length (pass_from app_label ops) + 2.
Proof.
  destruct (pass_cases app_label ops)
    as [->|(pre & o1 & mid & o2 & post & r & -> & Hr & ->)]; [lia|].
  rewrite !length_app; simpl. rewrite !length_app; simpl. lia.
Qed.

Lemma optimize_loop_count app_label fuel ops it r n :
  optimize_loop fuel ops app_label it = Some (r, n) →
  it < n
  ∧ length ops ≤ length r + 2 * (n - it - 1)
  ∧ n - it + measure r ≤ measure ops + 1
  ∧ (n = it + 1 → r = ops).
Proof.
  revert ops it. induction fuel as [|fuel IH]; intros ops it; [done|].
  cbn [optimize_loop]. case_decide as Hstop.
  - intros [= <- <-]. rewrite !Hstop. repeat split; lia.
  - intros (Hn & Hlen & Hm & _)%IH.
    rewrite optimize_inner_pass in *.
    pose proof (pass_length_lower app_label ops).
    destruct (pass_measure app_label ops) as [?|?]; [done|].
    repeat split; lia.
Qed.

(** X6: the counter [_iterations] of a run that returns is at least 1 and
    at most the measure of the input plus one; a pass removes at most two
    operations, so [n] passes remove at most [2 * (n - 1)]; and the run
    returns after a single pass exactly when it returns its input. *)
Theorem optimize_iterations fuel ops app_label r n :
  optimize fuel ops app_label = Some (r, n) →
  1 ≤ n ≤ measure ops + 1
  ∧ length ops ≤ length r + 2 * (n - 1)
  ∧ (n = 1 ↔ r = ops).
Proof.
  intros Hrun.
  destruct (optimize_loop_count _ _ _ _ _ _ Hrun) as (Hn & Hlen & Hm & H1).
  repeat split; [lia|lia|by replace (n - 1) with (n - 0 - 1) by lia|done|].
  intros ->. lia.
Qed.

(** X7: a list of fewer than two operations is returned as it is, after a
    single pass. *)
Theorem optimize_short_list fuel ops app_label :
  length ops ≤ 1 →
  optimize (S fuel) ops app_label = Some (ops, 1).
Proof.
  intros Hlen. apply (optimize_loop_fixed fuel ops app_label 0).
  rewrite optimize_inner_pass.
  destruct ops as [|op [|op' ops]]; simpl in *; [done..|lia].
Qed.

(** ** Where a scan stops *)

Lemma partner_through app_label op rest k r k' m :
  first_partner app_label op rest k r → k' < k → rest !! k' = Some m →
  can_optimize_through op m app_label = true.
Proof. intros [_ Hbefore] Hlt Hm. by destruct (Hbefore k' m Hlt Hm). Qed.

Lemma partner_lookup_lt app_label op rest k r :
  first_partner app_label op rest k r → k < length rest.
Proof. intros [(o & Ho & _) _]. by eapply lookup_lt_Some. Qed.

Lemma can_optimize_through_kinds op other app_label :
  kind op ∉ scanning_kinds → can_optimize_through op other app_label = false.
Proof.
  intros Hnot. destruct op; try reflexivity; destruct Hnot;
    unfold scanning_kinds, MODEL_LEVEL_OPERATIONS, FIELD_LEVEL_OPERATIONS;
    cbn [kind app];
    repeat first [apply list_elem_of_here | apply list_elem_of_further].
Qed.

Lemma pass_head_stops app_label op next rest :
  reduce op next = None →
  can_optimize_through op next app_label = false →
  pass_from app_label (op :: next :: rest)
  = op :: pass_from app_label (next :: rest).
Proof. intros Hr Hthrough. cbn [pass_from scan]. by rewrite Hr, Hthrough. Qed.

(** X8: an operation that is neither model level nor field level for
    [can_optimize_through] (a DeleteModel, RenameModel, RemoveField,
    RenameField or an operation of another kind) folds with the operation
    right after it or with none: when that pair does not fold, the pass
    keeps the operation and goes on behind it. *)
Theorem other_kinds_fold_with_next_only op app_label :
  kind op ∉ scanning_kinds →
  (∀ rest k r, first_partner app_label op rest k r → k = 0)
  ∧ ∀ next rest, reduce op next = None →
      optimize_inner (op :: next :: rest) app_label
      = op :: optimize_inner (next :: rest) app_label.
Proof.
  intros Hkind. split.
  - intros rest [|k] r Hp; [done|].
    pose proof (partner_lookup_lt _ _ _ _ _ Hp) as Hlt.
    destruct rest as [|m rest]; simpl in Hlt; [lia|].
    assert (can_optimize_through op m app_label = true) as Hthrough
      by (apply (partner_through _ _ _ _ _ 0 m Hp); [lia|done]).
    by rewrite can_optimize_through_kinds in Hthrough.
  - intros next rest Hr. rewrite !optimize_inner_pass.
    apply pass_head_stops; [done|]. by apply can_optimize_through_kinds.
Qed.

Lemma can_optimize_through_references op b app_label :
  references_everything b app_label →
  can_optimize_through op b app_label = false.
Proof.
  intros [Hm Hf]. unfold can_optimize_through. rewrite Hm, Hf.
  by rewrite !andb_false_r.
Qed.

(** X9: no scan goes past an operation that answers both reference queries
    with True for every name: the operation a scan folds with is never
    behind it, and when the pair does not fold the pass keeps the scanned
    operation and goes on from the next one. *)
Theorem nothing_scans_past_references_everything b app_label :
  references_everything b app_label →
  (∀ op rest k r k', first_partner app_label op rest k r →
     rest !! k' = Some b → k ≤ k')
  ∧ ∀ op rest, reduce op b = None →
      optimize_inner (op :: b :: rest) app_label
      = op :: optimize_inner (b :: rest) app_label.
Proof.
  intros Hall. split.
  - intros op rest k r k' Hp Hb. destruct (decide (k ≤ k')); [done|].
    assert (can_optimize_through op b app_label = true) as Hthrough
      by (apply (partner_through _ _ _ _ _ k' b Hp); [lia|done]).
    by rewrite can_optimize_through_references in Hthrough.
  - intros op rest Hr. rewrite !optimize_inner_pass.
    apply pass_head_stops; [done|].
    by apply can_optimize_through_references.
Qed.

(** ** What the folds of a CreateModel keep *)

(** X10: a fold of a CreateModel with a later operation returns nothing,
    and then the later operation is a DeleteModel, or one CreateModel with
    the options and bases of the first, under the same name unless the
    later operation is a RenameModel. *)
Theorem create_model_folds_keep_options_and_bases
    (name : string) (fields : list (string * Field)) (options : Payload)
    (bases : list Payload) other r :
  reduce (CreateModel name fields options bases) other = Some r →
  (r = [] ∧ kind other = KDeleteModel)
  ∨ ∃ name' fields',
      r = [CreateModel name' fields' options bases]
      ∧ (kind other ≠ KRenameModel → name' = name).
Proof.
  destruct other; cbn; try discriminate;
    case_bool_decide; try discriminate; intros [= <-];
    first [by left | right; do 2 eexists; split; [reflexivity|]];
    cbn; congruence.
Qed.

Lemma reduce_create_alter
    (name : string) (fields : list (string * Field)) (options : Payload)
    (bases : list Payload) model_name fname field :
  reduce (CreateModel name fields options bases)
    (AlterField model_name fname field)
  = if bool_decide (lower name = lower model_name)
    then Some [CreateModel name
                 ((λ '(n, v), (n, if bool_decide (n = fname)
                                  then field else v)) <$> fields)
                 options bases]
    else None.
Proof. reflexivity. Qed.

Lemma reduce_create_rename_field
    (name : string) (fields : list (string * Field)) (options : Payload)
    (bases : list Payload) model_name old_name new_name :
  reduce (CreateModel name fields options bases)
    (RenameField model_name old_name new_name)
  = if bool_decide (lower name = lower model_name)
    then Some [CreateModel name
                 ((λ '(n, v), (if bool_decide (n = old_name)
                               then new_name else n, v)) <$> fields)
                 options bases]
    else None.
Proof. reflexivity. Qed.

(** X11: folding an AlterField into a CreateModel keeps the names and the
    order of the fields, gives the new definition to every field named as
    the AlterField says and leaves the others as they were; folding a
    RenameField keeps the definitions and their order, and no field is
    left under the old name when the new one differs. *)
Theorem create_model_alter_and_rename_field
    (name : string) (fields fields' : list (string * Field))
    (options : Payload) (bases : list Payload) other name' options' bases' :
  reduce (CreateModel name fields options bases) other
  = Some [CreateModel name' fields' options' bases'] →
  (∀ model_name fname field, other = AlterField model_name fname field →
     field_names fields' = field_names fields
     ∧ (∀ v, (fname, v) ∈ fields' → v = field)
     ∧ ∀ i n v, n ≠ fname → fields' !! i = Some (n, v)
         ↔ fields !! i = Some (n, v))
  ∧ (∀ model_name old_name new_name,
       other = RenameField model_name old_name new_name →
       fields'.*2 = fields.*2
       ∧ (old_name ≠ new_name → old_name ∉ field_names fields')).
Proof.
  intros Hr. split.
  - intros model_name fname field ->. rewrite reduce_create_alter in Hr.
    case_bool_decide; [|done]. simplify_eq.
    unfold field_names. split; [|split].
    + change (@map) with (@fmap list _).
      rewrite <- list_fmap_compose. apply list_fmap_ext. by intros i [n v] _.
    + intros v ([n w] & [= <- ->] & _)%list_elem_of_fmap.
      by rewrite bool_decide_true.
    + intros i n v Hne. rewrite list_lookup_fmap.
      destruct (fields !! i) as [[n' w]|]; simpl; [|done].
      case_bool_decide; split; intros [= <- <-]; congruence.
  - intros model_name old_name new_name ->.
    rewrite reduce_create_rename_field in Hr.
    case_bool_decide; [|done]. simplify_eq.
    split.
    + rewrite <- list_fmap_compose. apply list_fmap_ext. by intros i [n v] _.
    + intros Hne. unfold field_names. change (@map) with (@fmap list _).
      rewrite <- list_fmap_compose.
      intros ([n v] & Heq & _)%list_elem_of_fmap. simpl in Heq.
      case_bool_decide; congruence.
Qed.


(** ** Runs on short sequences *)

Lemma optimize_loop_step fuel ops app_label it :
  optimize_inner ops app_label ≠ ops →
  optimize_loop (S fuel) ops app_label it
  = optimize_loop fuel (optimize_inner ops app_label) app_label (it + 1).
Proof. intros Hne. cbn [optimize_loop]. by rewrite decide_False. Qed.





Lemma pass_rename_chain app_label a b c names :
  pass_from app_label (rename_chain a (b :: c :: names))
  = rename_chain (Field := Field) (Payload := Payload) a (c :: names).
Proof.
  cbn [rename_chain pass_from scan].
  assert (reduce (RenameModel a b) (RenameModel b c)
          = Some [RenameModel (Field := Field) (Payload := Payload) a c])
    as -> by (cbn; by rewrite bool_decide_true).
  reflexivity.
Qed.

Lemma rename_chain_length a names :
  length (rename_chain (Field := Field) (Payload := Payload) a names)
  = length names.
Proof.
  revert a. induction names as [|b names IH]; intros a; simpl; [done|].
  by rewrite IH.
Qed.

Lemma optimize_loop_rename_chain app_label names a b it :
  optimize_loop (S (length names)) (rename_chain a (b :: names)) app_label it
  = Some ([RenameModel a (default b (last names))], it + S (length names)).
Proof.
  revert b it. induction names as [|c names IH]; intros b it.
  - simpl length. rewrite optimize_loop_fixed; [done|].
    by rewrite optimize_inner_pass.
  - rewrite optimize_loop_step.
    + rewrite optimize_inner_pass, pass_rename_chain, IH.
      rewrite last_cons. simpl length.
      destruct (last names); simpl; do 2 f_equal; lia.
    + rewrite optimize_inner_pass, pass_rename_chain.
      intros Heq%(f_equal length). rewrite !rename_chain_length in Heq.
      simpl in Heq. lia.
Qed.

(** X14: renames of a model in a row, each from the name the one before
    renamed to, are folded by a run into the single rename from the first
    name to the last, one fold a pass. *)
Theorem optimize_rename_chain app_label a b names :
  optimize (S (length names)) (rename_chain a (b :: names)) app_label
  = Some ([RenameModel a (default b (last names))], S (length names)).
Proof. apply (optimize_loop_rename_chain app_label names a b 0). Qed.

(** X16: an AlterField followed by the RenameField of its field is turned
    round once: the run returns the RenameField followed by the AlterField
    under the new name after two passes, whatever the operations
    reference. *)
Theorem optimize_alter_then_rename_field
    (model_name name : string) (field : Field)
    (model_name' old_name new_name : string) app_label fuel :
  lower model_name = lower model_name' →
  lower name = lower old_name →
  optimize (S (S fuel))
    [AlterField model_name name field;
     RenameField model_name' old_name new_name] app_label
  = Some ([RenameField model_name' old_name new_name;
           AlterField model_name new_name field], 2).
Proof.
  intros Hm Hn. unfold optimize.
  assert (optimize_inner
            [AlterField model_name name field;
             RenameField model_name' old_name new_name] app_label
          = [RenameField model_name' old_name new_name;
             AlterField model_name new_name field]) as Hpass.
  { rewrite optimize_inner_pass. cbn [pass_from scan].
    assert (reduce (AlterField model_name name field)
              (RenameField model_name' old_name new_name)
            = Some [RenameField model_name' old_name new_name;
                    AlterField (Payload := Payload)
                      model_name new_name field]) as ->
      by (cbn; by rewrite !bool_decide_true).
    reflexivity. }
  rewrite optimize_loop_step by (rewrite Hpass; discriminate).
  rewrite Hpass. by rewrite optimize_loop_fixed.
Qed.

(** ** Letter case and matching *)

Lemma lower_ascii_idemp c : lower_ascii (lower_ascii c) = lower_ascii c.
Proof. destruct c as [[] [] [] [] [] [] [] []]; reflexivity. Qed.

Lemma lower_idemp s : lower (lower s) = lower s.
Proof.
  induction s as [|c s IH]; simpl; [done|].
  by rewrite lower_ascii_idemp, IH.
Qed.

(** X15: whether a pair folds does not depend on the letter case of the
    model and field names the two operations carry: [reduce] matches the
    pair exactly when it matches the pair with those names lowered. *)
Theorem reduce_matches_whatever_the_case op other :
  is_Some (reduce (lower_names op) (lower_names other))
  ↔ is_Some (reduce op other).
Proof.
  destruct op, other; cbn; try done; rewrite !lower_idemp;
    repeat case_bool_decide; cbn; split; intros Hsome;
    first [by eauto | by destruct Hsome].
Qed.

End Further.

(** * The further properties at concrete inputs *)

Lemma reduce_reversed_table_example :
  reduce_loop (reverse submethods) ex_pony (AddField "pony" "legs" 4)
  = reduce ex_pony (AddField "pony" "legs" 4).
Proof.
  apply (reduce_order_of_table_irrelevant
           (reverse submethods) ex_pony (AddField "pony" "legs" 4)).
  apply reverse_Permutation.
Defined.

Lemma no_adjacent_fold_example :
  reduce (OtherOperation 0 : ExOp) (AddField "Horse" "age" 2) = None.
Proof.
  apply (optimize_result_has_no_adjacent_fold (caps := by_name)
           3 ex_first_pair None
           [OtherOperation 0; AddField "Horse" "age" 2; DeleteModel "Horse"]
           2 0 (OtherOperation 0) (AddField "Horse" "age" 2));
    reflexivity.
Defined.

Lemma iterations_example :
  1 ≤ 2 ≤ measure ex_renames + 1
  ∧ length ex_renames ≤ length ex_renames_folded + 2 * (2 - 1)
  ∧ (2 = 1 ↔ ex_renames_folded = ex_renames).
Proof.
  apply (optimize_iterations (caps := by_name)
           5 ex_renames None ex_renames_folded 2).
  reflexivity.
Defined.

Lemma short_list_example :
  optimize (caps := by_name) 1 [ex_pony] None = Some ([ex_pony], 1).
Proof.
  apply (optimize_short_list (caps := by_name) 0 [ex_pony] None).
  simpl. lia.
Defined.

Lemma rename_model_stops_example :
  optimize_inner (caps := by_name)
    [RenameModel "Pony" "Horse"; ex_pony; RenameModel "horse" "Equine"] None
  = RenameModel "Pony" "Horse"
    :: optimize_inner (caps := by_name)
         [ex_pony; RenameModel "horse" "Equine"] None.
Proof.
  apply (proj2 (other_kinds_fold_with_next_only (caps := by_name)
                  (RenameModel "Pony" "Horse") None
                  ltac:(apply (bool_decide_unpack _); reflexivity))
           ex_pony [RenameModel "horse" "Equine"]).
  reflexivity.
Defined.

Lemma references_everything_example :
  optimize_inner (caps := cautious)
    [ex_pony; OtherOperation 0; DeleteModel "pony"] None
  = ex_pony
    :: optimize_inner (caps := cautious)
         [OtherOperation 0; DeleteModel "pony"] None.
Proof.
  apply (proj2 (nothing_scans_past_references_everything (caps := cautious)
                  (OtherOperation 0) None
                  (conj (λ _, eq_refl) (λ _ _, eq_refl)))
           ex_pony [DeleteModel "pony"]).
  reflexivity.
Defined.

Lemma create_rename_keeps_payload_example :
  ([CreateModel "Horse" [("age", 1)] 0 []] = [] ∧ KRenameModel = KDeleteModel)
  ∨ ∃ name' fields',
      [CreateModel "Horse" [("age", 1)] 0 []]
      = [CreateModel (Field := nat) name' fields' 0 []]
      ∧ (KRenameModel ≠ KRenameModel → name' = "Pony").
Proof.
  apply (create_model_folds_keep_options_and_bases
           "Pony" [("age", 1)] 0 [] (RenameModel "pony" "Horse")
           [CreateModel "Horse" [("age", 1)] 0 []]).
  reflexivity.
Defined.

Lemma alter_field_keeps_names_example :
  field_names [("age", 5)] = field_names [("age", 1)].
Proof.
  apply (proj1 (create_model_alter_and_rename_field
                  "Pony" [("age", 1)] [("age", 5)] 0 []
                  (AlterField "pony" "age" 5) "Pony" 0 [] eq_refl)
           "pony" "age" 5 eq_refl).
Defined.



Lemma alter_then_rename_example :
  optimize (caps := cautious) 2
    [AlterField "Pony" "Age" 1; RenameField "pony" "age" "years" : ExOp]
    None
  = Some ([RenameField "pony" "age" "years"; AlterField "Pony" "years" 1], 2).
Proof.
  apply (optimize_alter_then_rename_field (caps := cautious)
           "Pony" "Age" 1 "pony" "age" "years" None 0); reflexivity.
Defined.
